(** * Environment registry of the endpoint data service

    A shallow embedding of [api/dataservices/endpoint/endpoint.go] and of
    the types of [api/portainer.go] it uses, with the properties of the
    registry (edge-ID index, heartbeat cache) and of the tunnel state
    machine stated and proved over it.

    Conventions.
    - Go's [int] and [int64] are modelled as [Z]; the registry performs no
      arithmetic on them, so no wrap-around can occur.
    - Go maps and [sync.Map] are finite maps ([gmap]).
    - A method with a pointer receiver becomes a function that takes the
      service and returns the new service next to its Go results.
    - [time.Now().Unix()] is an explicit argument [now].
    - The mutex [mu] only serialises accesses; the model is sequential and
      has no field for it. *)

From stdpp Require Import gmap strings list fin_maps.
From Stdlib Require Import ZArith Lia Sorted.

(** ** api/portainer.go *)

Module portainer.

(** [EndpointID int] *)
Abbreviation EndpointID := Z (only parsing).

(** Go's [error] values, as their message. *)
Abbreviation error := string (only parsing).

(** [Endpoint struct]: the fields the registry reads or writes, and two
    that it only carries. *)
Record Endpoint := mkEndpoint {
  ID : EndpointID;
  Name : string;
  EdgeID : string;
  EdgeKey : string;
  LastCheckInDate : Z
}.

Definition set_ID (v : EndpointID) (e : Endpoint) : Endpoint :=
  {| ID := v; Name := Name e; EdgeID := EdgeID e; EdgeKey := EdgeKey e;
     LastCheckInDate := LastCheckInDate e |}.

Definition set_LastCheckInDate (v : Z) (e : Endpoint) : Endpoint :=
  {| ID := ID e; Name := Name e; EdgeID := EdgeID e; EdgeKey := EdgeKey e;
     LastCheckInDate := v |}.

#[global] Instance Endpoint_eq_dec : EqDecision Endpoint.
Proof. solve_decision. Defined.

(** Tunnel status constants. *)
Definition EdgeAgentIdle : string := "IDLE".
Definition EdgeAgentManagementRequired : string := "REQUIRED".
Definition EdgeAgentActive : string := "ACTIVE".

End portainer.

Import portainer.

(** A Go result pair [(T, error)] of which exactly one side is set. *)
Inductive result (A : Type) : Type :=
  | Ok (a : A)
  | Err (err : error).
Arguments Ok {A} a.
Arguments Err {A} err.

(** ** The persistent store *)

Module Store.

(** Modelled from the spec: [portainer.Connection] and the database handle
    it returns from [GetDB] are not among the sources.  The store is the
    "Persistent Store" collaborator of the specification: a table of
    environment records keyed by ID with a full scan, a save with
    insert-or-replace semantics keyed by ID, a delete by ID and a create
    that assigns the ID.  Every operation fails with the store's error
    while the store is unavailable. *)
Record DB := mkDB {
  rows : list Endpoint;
  unavailable : option error
}.

Definition set_rows (l : list Endpoint) (db : DB) : DB :=
  {| rows := l; unavailable := unavailable db |}.

(** Modelled from the spec: [scanAll], the full scan behind
    [db.Find(&endpoints)]. *)
Definition Find (db : DB) : result (list Endpoint) :=
  match unavailable db with
  | Some err => Err err
  | None => Ok (rows db)
  end.

(** Modelled from the spec: [getByID], a record or not found. *)
Definition GetByID (id : EndpointID) (db : DB) : result (option Endpoint) :=
  match unavailable db with
  | Some err => Err err
  | None => Ok (List.find (fun r => bool_decide (ID r = id)) (rows db))
  end.

(** Modelled from the spec: the NotFound outcome of [getByID], which
    [connection.GetByID] reports as an error. *)
Definition ErrObjectNotFound : error := "NotFound".

(** Modelled from the spec: [connection.GetByID(id, &obj)], which fills
    [obj] or returns an error. *)
Definition GetObject (id : EndpointID) (db : DB) : result Endpoint :=
  match GetByID id db with
  | Err err => Err err
  | Ok None => Err ErrObjectNotFound
  | Ok (Some r) => Ok r
  end.

(** Modelled from the spec: the replace half of [save]. *)
Fixpoint replace_row (e : Endpoint) (l : list Endpoint) : list Endpoint :=
  match l with
  | [] => []
  | r :: l' =>
      if bool_decide (ID r = ID e) then e :: l' else r :: replace_row e l'
  end.

(** Modelled from the spec: whether the table has a row under [id]. *)
Definition has_row (id : EndpointID) (l : list Endpoint) : bool :=
  existsb (fun r => bool_decide (ID r = id)) l.

(** Modelled from the spec: [save], insert-or-replace keyed by ID, behind
    [db.Save(&endpoint)]. *)
Definition Save (e : Endpoint) (db : DB) : option error * DB :=
  match unavailable db with
  | Some err => (Some err, db)
  | None =>
      if has_row (ID e) (rows db)
      then (None, set_rows (replace_row e (rows db)) db)
      else (None, set_rows (rows db ++ [e]) db)
  end.

(** Modelled from the spec: [delete], which removes the row with the given
    ID, if any, behind [db.Model(..).Delete("id = ?", ID)]. *)
Definition Delete (id : EndpointID) (db : DB) : option error * DB :=
  match unavailable db with
  | Some err => (Some err, db)
  | None =>
      (None,
       set_rows (List.filter (fun r => negb (bool_decide (ID r = id))) (rows db)) db)
  end.

(** Modelled from the spec: the ID a creation assigns, above every ID in
    the table. *)
Definition next_id (l : list Endpoint) : EndpointID :=
  (1 + foldr (fun r m => Z.max (ID r) m) 0 l)%Z.

(** Modelled from the spec: the creation behind
    [db.Model(..).Create(&endpoint)], which assigns the ID.  A record whose
    ID is zero is given a fresh ID; a record whose ID is already taken is
    refused.  The record as stored is returned, as the call writes the
    assigned ID back through the pointer. *)
Definition Create (e : Endpoint) (db : DB) : option error * DB * Endpoint :=
  match unavailable db with
  | Some err => (Some err, db, e)
  | None =>
      let e' := if bool_decide (ID e = 0%Z) then set_ID (next_id (rows db)) e else e in
      if has_row (ID e') (rows db)
      then (Some "UNIQUE constraint failed: endpoints.id", db, e')
      else (None, set_rows (rows db ++ [e']) db, e')
  end.

End Store.

(** ** api/dataservices/endpoint/endpoint.go *)

(** [Service struct] *)
Record Service := mkService {
  connection : Store.DB;
  idxEdgeID : gmap string EndpointID;
  heartbeats : gmap EndpointID Z
}.

Definition set_connection (db : Store.DB) (service : Service) : Service :=
  {| connection := db; idxEdgeID := idxEdgeID service;
     heartbeats := heartbeats service |}.

Definition set_idxEdgeID (m : gmap string EndpointID) (service : Service) : Service :=
  {| connection := connection service; idxEdgeID := m;
     heartbeats := heartbeats service |}.

Definition set_heartbeats (m : gmap EndpointID Z) (service : Service) : Service :=
  {| connection := connection service; idxEdgeID := idxEdgeID service;
     heartbeats := m |}.

(** [NewService] *)
Definition NewService (connection : Store.DB) : Service :=
  {| connection := connection; idxEdgeID := ∅; heartbeats := ∅ |}.

(** [endpoints] *)
Definition endpoints (service : Service) : result (list Endpoint) :=
  Store.Find (connection service).

(** The body of the loop of [Init], for one record [e]. *)
Definition Init_body (e : Endpoint) (service : Service) : Service :=
  let service :=
    if (0 <? String.length (EdgeID e))%nat
    then set_idxEdgeID (<[EdgeID e := ID e]> (idxEdgeID service)) service
    else service in
  set_heartbeats (<[ID e := LastCheckInDate e]> (heartbeats service)) service.

(** [for _, e := range es] of [Init]. *)
Fixpoint Init_loop (es : list Endpoint) (service : Service) : Service :=
  match es with
  | [] => service
  | e :: es' => Init_loop es' (Init_body e service)
  end.

(** [Init] *)
Definition Init (service : Service) : option error * Service :=
  match endpoints service with
  | Err err => (Some err, service)
  | Ok es => (None, Init_loop es service)
  end.

(** [Endpoint], the lookup of one environment by ID; the name [Endpoint]
    is the record type here. *)
Definition EndpointByID (ID : EndpointID) (service : Service) : result Endpoint :=
  match Store.GetObject ID (connection service) with
  | Err err => Err err
  | Ok obj => Ok obj
  end.

(** [UpdateEndpoint]; [endpoint.ID = ID] writes through the pointer, so
    the record as the caller sees it after the call is returned too. *)
Definition UpdateEndpoint (ID : EndpointID) (endpoint : Endpoint)
    (service : Service) : option error * Service * Endpoint :=
  let db := connection service in
  let endpoint := set_ID ID endpoint in
  let '(tx_Error, db) := Store.Save endpoint db in
  match tx_Error with
  | Some err => (Some err, set_connection db service, endpoint)
  | None => (None, set_connection db service, endpoint)
  end.

(** [DeleteEndpoint] *)
Definition DeleteEndpoint (ID : EndpointID) (service : Service)
    : option error * Service :=
  let db := connection service in
  let '(tx_Error, db) := Store.Delete ID db in
  match tx_Error with
  | Some err => (Some err, set_connection db service)
  | None => (None, set_connection db service)
  end.

(** [Heartbeat] *)
Definition Heartbeat (endpointID : EndpointID) (service : Service) : Z * bool :=
  match heartbeats service !! endpointID with
  | Some t => (t, true)
  | None => (0%Z, false)
  end.

(** [for i, e := range endpoints] of [Endpoints]: the result of
    [Heartbeat] is written to [endpoints[i].LastCheckInDate], its second
    component is dropped. *)
Fixpoint Endpoints_loop (endpoints : list Endpoint) (service : Service)
    : list Endpoint :=
  match endpoints with
  | [] => []
  | e :: rest =>
      let '(t, _) := Heartbeat (ID e) service in
      set_LastCheckInDate t e :: Endpoints_loop rest service
  end.

(** [Endpoints] *)
Definition Endpoints (service : Service) : result (list Endpoint) :=
  match endpoints service with
  | Err err => Err err
  | Ok endpoints => Ok (Endpoints_loop endpoints service)
  end.

(** [EndpointIDByEdgeID]; a missing key reads as Go's zero value. *)
Definition EndpointIDByEdgeID (edgeID : string) (service : Service)
    : EndpointID * bool :=
  match idxEdgeID service !! edgeID with
  | Some endpointID => (endpointID, true)
  | None => (0%Z, false)
  end.

(** [UpdateHeartbeat]; [now] is the value of [time.Now().Unix()]. *)
Definition UpdateHeartbeat (endpointID : EndpointID) (now : Z)
    (service : Service) : Service :=
  set_heartbeats (<[endpointID := now]> (heartbeats service)) service.

(** [Create]; returns the record as the caller sees it after the call. *)
Definition Create (endpoint : Endpoint) (service : Service)
    : option error * Service * Endpoint :=
  let db := connection service in
  let '(tx_Error, db, endpoint) := Store.Create endpoint db in
  match tx_Error with
  | Some err => (Some err, set_connection db service, endpoint)
  | None => (None, set_connection db service, endpoint)
  end.

(** ** The tunnel coordinator *)

Module Tunnel.

(** Modelled from the spec: the implementation of
    [portainer.ReverseTunnelService] is not among the sources, only the
    interface and the three status constants are.  The coordinator follows
    section 4.2 of the specification: one tunnel state per environment ID,
    created lazily on first reference in state Idle; [setRequired],
    [setActive], [setIdle], [keepAlive], [status] and the background
    [sweep].  The keep-alive deadline is "the timestamp after which, absent
    renewed activity, the state reverts to Idle", so a deadline has elapsed
    at the clock readings strictly greater than it.  The clock reading and
    the listener port are explicit arguments. *)
Record TunnelState := mkTunnelState {
  Status : string;
  Credentials : string;
  Deadline : Z;
  Port : Z
}.

(** Modelled from the spec: the tunnel states by environment ID and the
    configured keep-alive duration. *)
Record Coordinator := mkCoordinator {
  tunnels : gmap EndpointID TunnelState;
  keepAliveDuration : Z
}.

Definition set_tunnels (m : gmap EndpointID TunnelState) (c : Coordinator)
    : Coordinator :=
  {| tunnels := m; keepAliveDuration := keepAliveDuration c |}.

(** Modelled from the spec: the state a first reference creates. *)
Definition fresh : TunnelState :=
  {| Status := EdgeAgentIdle; Credentials := ""; Deadline := 0; Port := 0 |}.

(** Modelled from the spec: the state of an ID, created lazily. *)
Definition get (environmentID : EndpointID) (c : Coordinator) : TunnelState :=
  default fresh (tunnels c !! environmentID).

(** Modelled from the spec: [status]. *)
Definition status (environmentID : EndpointID) (c : Coordinator) : string :=
  Status (get environmentID c).

(** Modelled from the spec: [setRequired]; Idle or Active become Required,
    Required stays. *)
Definition setRequired (environmentID : EndpointID) (c : Coordinator)
    : Coordinator :=
  let t := get environmentID c in
  let t' := {| Status := EdgeAgentManagementRequired;
               Credentials := Credentials t;
               Deadline := Deadline t; Port := Port t |} in
  set_tunnels (<[environmentID := t']> (tunnels c)) c.

(** Modelled from the spec: [setActive]; any state becomes Active, the
    deadline is reset to one keep-alive duration from now, the listener
    port is recorded. *)
Definition setActive (environmentID : EndpointID) (now : Z) (port : Z)
    (c : Coordinator) : Coordinator :=
  let t := get environmentID c in
  let t' := {| Status := EdgeAgentActive; Credentials := Credentials t;
               Deadline := now + keepAliveDuration c; Port := port |} in
  set_tunnels (<[environmentID := t']> (tunnels c)) c.

(** Modelled from the spec: [setIdle]; forces Idle and releases the port. *)
Definition setIdle (environmentID : EndpointID) (c : Coordinator)
    : Coordinator :=
  let t := get environmentID c in
  let t' := {| Status := EdgeAgentIdle; Credentials := Credentials t;
               Deadline := Deadline t; Port := 0 |} in
  set_tunnels (<[environmentID := t']> (tunnels c)) c.

(** Modelled from the spec: [keepAlive]; extends the deadline while Active,
    ignored otherwise. *)
Definition keepAlive (environmentID : EndpointID) (duration : Z)
    (c : Coordinator) : Coordinator :=
  let t := get environmentID c in
  if bool_decide (Status t = EdgeAgentActive)
  then
    let t' := {| Status := Status t; Credentials := Credentials t;
                 Deadline := Deadline t + duration; Port := Port t |} in
    set_tunnels (<[environmentID := t']> (tunnels c)) c
  else c.

(** Modelled from the spec: what the sweep does to one entry; an Active
    entry whose deadline has elapsed becomes Idle and gives up its port. *)
Definition demote (now : Z) (t : TunnelState) : TunnelState :=
  if bool_decide (Status t = EdgeAgentActive) && (Deadline t <? now)%Z
  then {| Status := EdgeAgentIdle; Credentials := Credentials t;
          Deadline := Deadline t; Port := 0 |}
  else t.

(** Modelled from the spec: one run of the background sweep at clock
    reading [now]. *)
Definition sweep (now : Z) (c : Coordinator) : Coordinator :=
  set_tunnels (demote now <$> tunnels c) c.

End Tunnel.

(** ** Well-formed store contents

    The data model of the registry: the environment ID is unique, and so is
    the edge-ID when present. *)

(** The edge-IDs that are present, in scan order. *)
Definition edgeIDs (es : list Endpoint) : list string :=
  filter (λ k, k ≠ "") (EdgeID <$> es).

Definition unique_IDs (es : list Endpoint) : Prop := NoDup (ID <$> es).

Definition unique_edgeIDs (es : list Endpoint) : Prop := NoDup (edgeIDs es).

(** The overlay of [Endpoints] as the specification words it: the cached
    heartbeat replaces the persisted value where the cache has an entry,
    and the persisted value is kept where it has none. *)
Definition overlay_keeping_persisted (service : Service) (e : Endpoint)
    : Endpoint :=
  match heartbeats service !! ID e with
  | Some t => set_LastCheckInDate t e
  | None => e
  end.

(** The overlay as [Endpoints] performs it: a record without a cache entry
    gets the zero timestamp that [Heartbeat] returns for a miss. *)
Definition overlay_heartbeat (service : Service) (e : Endpoint) : Endpoint :=
  set_LastCheckInDate (default 0%Z (heartbeats service !! ID e)) e.

(** Sequential [UpdateHeartbeat] calls on one ID, one per clock reading,
    each followed by [Heartbeat] on that ID; the observations in order. *)
Fixpoint heartbeat_trace (endpointID : EndpointID) (clock : list Z)
    (service : Service) : list (Z * bool) :=
  match clock with
  | [] => []
  | now :: later =>
      let service := UpdateHeartbeat endpointID now service in
      Heartbeat endpointID service :: heartbeat_trace endpointID later service
  end.

(** The ID of the last record of a scan that carries the edge-ID [k]. *)
Definition last_with_edgeID (k : string) (es : list Endpoint)
    : option EndpointID :=
  last (ID <$> filter (λ e, EdgeID e = k) es).

(** The persisted last-check-in value of the last record of a scan that
    has the ID [i]. *)
Definition last_checkin_of (i : EndpointID) (es : list Endpoint) : option Z :=
  last (LastCheckInDate <$> filter (λ e, ID e = i) es).

(** What a heartbeat for [id] at [now] does to one listed record. *)
Definition with_heartbeat (id : EndpointID) (now : Z) (e : Endpoint) : Endpoint :=
  if bool_decide (ID e = id) then set_LastCheckInDate now e else e.

(** A few records and stores used for examples. *)
Module Sample.

Definition e7 : Endpoint :=
  {| ID := 7; Name := "edge"; EdgeID := "edge-abc"; EdgeKey := "k7";
     LastCheckInDate := 100 |}.

Definition e8 : Endpoint :=
  {| ID := 8; Name := "local"; EdgeID := ""; EdgeKey := "";
     LastCheckInDate := 0 |}.

Definition e9 : Endpoint :=
  {| ID := 9; Name := "edge2"; EdgeID := "edge-xyz"; EdgeKey := "k9";
     LastCheckInDate := 250 |}.

Definition db0 : Store.DB := {| Store.rows := []; Store.unavailable := None |}.

Definition db3 : Store.DB :=
  {| Store.rows := [e7; e8; e9]; Store.unavailable := None |}.

Definition e10 : Endpoint :=
  {| ID := 10; Name := "clone"; EdgeID := "edge-abc"; EdgeKey := "k10";
     LastCheckInDate := 40 |}.

(** Two records share the edge-ID "edge-abc". *)
Definition dup : Store.DB :=
  {| Store.rows := [e7; e8; e10; e9]; Store.unavailable := None |}.

Definition down : Store.DB :=
  {| Store.rows := [e7; e8; e9]; Store.unavailable := Some "connection refused" |}.

End Sample.

(** * Properties *)

(** Closes a decidable proposition about concrete data by evaluation. *)
Ltac by_evaluation := apply (bool_decide_unpack _); vm_compute; exact I.

(** ** The loop of [Init] *)

Lemma nonempty_length (s : string) :
  (0 <? String.length s)%nat = true ↔ s ≠ "".
Proof.
  destruct s as [|a s]; simpl; split; intros H; try done.
Qed.

Lemma Init_body_connection e s : connection (Init_body e s) = connection s.
Proof. unfold Init_body. by destruct (0 <? _)%nat. Qed.

Lemma Init_body_idx e s :
  idxEdgeID (Init_body e s) =
    if bool_decide (EdgeID e ≠ "")
    then <[EdgeID e := ID e]> (idxEdgeID s) else idxEdgeID s.
Proof.
  unfold Init_body.
  destruct (0 <? String.length (EdgeID e))%nat eqn:E.
  - apply nonempty_length in E. by rewrite bool_decide_eq_true_2.
  - rewrite bool_decide_eq_false_2; [done|].
    intros H%nonempty_length. congruence.
Qed.

Lemma Init_body_heartbeats e s :
  heartbeats (Init_body e s) = <[ID e := LastCheckInDate e]> (heartbeats s).
Proof. unfold Init_body. by destruct (0 <? _)%nat. Qed.

Lemma Init_loop_connection es s : connection (Init_loop es s) = connection s.
Proof.
  revert s. induction es as [|e es IH]; intros s; simpl; [done|].
  by rewrite IH, Init_body_connection.
Qed.

Lemma edgeIDs_cons e es :
  edgeIDs (e :: es) =
    if bool_decide (EdgeID e ≠ "") then EdgeID e :: edgeIDs es else edgeIDs es.
Proof.
  unfold edgeIDs. rewrite fmap_cons, filter_cons.
  destruct (decide (EdgeID e ≠ "")).
  - by rewrite bool_decide_eq_true_2.
  - by rewrite bool_decide_eq_false_2.
Qed.

Lemma elem_of_edgeIDs k es :
  k ∈ edgeIDs es ↔ k ≠ "" ∧ ∃ e, e ∈ es ∧ EdgeID e = k.
Proof.
  unfold edgeIDs. rewrite list_elem_of_filter, list_elem_of_fmap. split.
  - intros [Hne (e & -> & Hin)]. split; [done|]. by exists e.
  - intros [Hne (e & Hin & <-)]. split; [done|]. by exists e.
Qed.

(** An edge-ID that no scanned record carries keeps its index entry. *)
Lemma Init_loop_idx_other es s k :
  k ∉ edgeIDs es → idxEdgeID (Init_loop es s) !! k = idxEdgeID s !! k.
Proof.
  revert s. induction es as [|e es IH]; intros s Hk; simpl; [done|].
  rewrite edgeIDs_cons in Hk.
  rewrite IH, Init_body_idx.
  - case_bool_decide; [|done].
    rewrite lookup_insert_ne; [done|]. set_solver.
  - case_bool_decide; set_solver.
Qed.

(** Every index entry after the loop was there before or comes from a
    scanned record with that non-empty edge-ID. *)
Lemma Init_loop_idx_inv es s k i :
  idxEdgeID (Init_loop es s) !! k = Some i →
  idxEdgeID s !! k = Some i ∨
  ∃ e, e ∈ es ∧ EdgeID e = k ∧ k ≠ "" ∧ ID e = i.
Proof.
  revert s. induction es as [|e es IH]; intros s H; simpl in *; [by left|].
  apply IH in H as [H|(e' & ? & ? & ? & ?)].
  - rewrite Init_body_idx in H. case_bool_decide.
    + destruct (decide (EdgeID e = k)) as [<-|Hne].
      * rewrite lookup_insert_eq in H. right. exists e. set_solver.
      * rewrite lookup_insert_ne in H by done. by left.
    + by left.
  - right. exists e'. set_solver.
Qed.

(** With unique edge-IDs, a scanned record with an edge-ID is indexed. *)
Lemma Init_loop_idx_in es s e :
  unique_edgeIDs es → e ∈ es → EdgeID e ≠ "" →
  idxEdgeID (Init_loop es s) !! EdgeID e = Some (ID e).
Proof.
  unfold unique_edgeIDs.
  revert s. induction es as [|r es IH]; intros s Hnd Hin Hne; [by inversion Hin|].
  simpl. rewrite edgeIDs_cons in Hnd.
  destruct (decide (EdgeID r = EdgeID e)) as [Heq|Hdiff].
  - (* the head carries this edge-ID: nothing after it does *)
    rewrite bool_decide_eq_true_2 in Hnd by congruence.
    apply NoDup_cons in Hnd as [Hnotin Hnd].
    assert (ID r = ID e) as Hid.
    { apply elem_of_cons in Hin as [->|Hin]; [done|].
      exfalso. apply Hnotin. apply elem_of_edgeIDs. split; [congruence|].
      exists e. by split. }
    rewrite Init_loop_idx_other by (by rewrite <- Heq).
    rewrite Init_body_idx, bool_decide_eq_true_2 by congruence.
    by rewrite Heq, lookup_insert_eq, Hid.
  - apply elem_of_cons in Hin as [->|Hin]; [done|].
    apply IH; [|done..].
    case_bool_decide; [by apply NoDup_cons in Hnd as [_ ?]|done].
Qed.

Lemma Init_loop_heartbeats_other es s i :
  i ∉ ID <$> es → heartbeats (Init_loop es s) !! i = heartbeats s !! i.
Proof.
  revert s. induction es as [|e es IH]; intros s Hi; simpl; [done|].
  rewrite fmap_cons in Hi. apply not_elem_of_cons in Hi as [Hne Hi].
  rewrite IH, Init_body_heartbeats by done.
  by rewrite lookup_insert_ne.
Qed.

Lemma Init_loop_heartbeats_in es s e :
  unique_IDs es → e ∈ es →
  heartbeats (Init_loop es s) !! ID e = Some (LastCheckInDate e).
Proof.
  unfold unique_IDs.
  revert s. induction es as [|r es IH]; intros s Hnd Hin; [by inversion Hin|].
  simpl. rewrite fmap_cons in Hnd. apply NoDup_cons in Hnd as [Hnotin Hnd].
  apply elem_of_cons in Hin as [->|Hin].
  - rewrite Init_loop_heartbeats_other by done.
    by rewrite Init_body_heartbeats, lookup_insert_eq.
  - by apply IH.
Qed.

Lemma Init_loop_heartbeats_inv es s i t :
  heartbeats (Init_loop es s) !! i = Some t →
  heartbeats s !! i = Some t ∨
  ∃ e, e ∈ es ∧ ID e = i ∧ LastCheckInDate e = t.
Proof.
  revert s. induction es as [|e es IH]; intros s H; simpl in *; [by left|].
  apply IH in H as [H|(e' & ? & ? & ?)].
  - rewrite Init_body_heartbeats in H.
    destruct (decide (ID e = i)) as [<-|Hne].
    + rewrite lookup_insert_eq in H. right. exists e. set_solver.
    + rewrite lookup_insert_ne in H by done. by left.
  - right. exists e'. set_solver.
Qed.

(** ** [Init] *)

Lemma Init_ok s s' :
  Init s = (None, s') →
  ∃ es, endpoints s = Ok es ∧ s' = Init_loop es s.
Proof.
  unfold Init. destruct (endpoints s) as [es|err]; intros [= <-]. eauto.
Qed.

(** C3. After [Init] succeeds on a newly constructed service whose store
    holds a set of records (unique IDs, edge-IDs unique when present), the
    edge-ID index maps [k] to [i] exactly when some record has the
    non-empty edge-ID [k] and the ID [i], so a record with an empty
    edge-ID gets no entry; and the heartbeat cache holds for every record
    its persisted last-check-in value, and nothing else. *)
Theorem Init_seeds_index_and_heartbeats (db : Store.DB) (s' : Service) :
  unique_IDs (Store.rows db) →
  unique_edgeIDs (Store.rows db) →
  Init (NewService db) = (None, s') →
  (∀ k i, idxEdgeID s' !! k = Some i ↔
          ∃ e, e ∈ Store.rows db ∧ EdgeID e = k ∧ k ≠ "" ∧ ID e = i) ∧
  idxEdgeID s' !! "" = None ∧
  (∀ e, e ∈ Store.rows db →
        heartbeats s' !! ID e = Some (LastCheckInDate e)) ∧
  (∀ i t, heartbeats s' !! i = Some t →
          ∃ e, e ∈ Store.rows db ∧ ID e = i ∧ LastCheckInDate e = t).
Proof.
  intros Hid Hedge Hinit.
  apply Init_ok in Hinit as (es & Hscan & ->).
  unfold endpoints, Store.Find in Hscan. simpl in Hscan.
  destruct (Store.unavailable db); [done|]. injection Hscan as <-.
  split; [|split; [|split]].
  - intros k i. split.
    + intros [H|H]%Init_loop_idx_inv; [|done].
      simpl in H. by rewrite lookup_empty in H.
    + intros (e & Hin & <- & Hne & <-). by apply Init_loop_idx_in.
  - rewrite Init_loop_idx_other; [done|].
    rewrite elem_of_edgeIDs. by intros [? _].
  - intros e Hin. by apply Init_loop_heartbeats_in.
  - intros i t [H|H]%Init_loop_heartbeats_inv; [|done].
    simpl in H. by rewrite lookup_empty in H.
Qed.

Lemma Init_seeds_index_and_heartbeats_witness :
  let s' := (Init (NewService Sample.db3)).2 in
  (∀ k i, idxEdgeID s' !! k = Some i ↔
          ∃ e, e ∈ Store.rows Sample.db3 ∧ EdgeID e = k ∧ k ≠ "" ∧ ID e = i) ∧
  idxEdgeID s' !! "" = None ∧
  (∀ e, e ∈ Store.rows Sample.db3 →
        heartbeats s' !! ID e = Some (LastCheckInDate e)) ∧
  (∀ i t, heartbeats s' !! i = Some t →
          ∃ e, e ∈ Store.rows Sample.db3 ∧ ID e = i ∧ LastCheckInDate e = t).
Proof.
  apply (Init_seeds_index_and_heartbeats Sample.db3).
  - unfold unique_IDs. by_evaluation.
  - unfold unique_edgeIDs. by_evaluation.
  - reflexivity.
Defined.

Example Init_db3_lookup :
  let s' := (Init (NewService Sample.db3)).2 in
  EndpointIDByEdgeID "edge-abc" s' = (7%Z, true) ∧
  EndpointIDByEdgeID "edge-xyz" s' = (9%Z, true) ∧
  EndpointIDByEdgeID "" s' = (0%Z, false) ∧
  Heartbeat 8 s' = (0%Z, true) ∧
  Heartbeat 9 s' = (250%Z, true).
Proof. vm_compute. done. Qed.

(** C8. [Init] returns an error exactly when the scan of the store fails,
    and then returns the service as it was: on a newly constructed service
    the index and the heartbeat cache are still empty.  [Endpoints] returns
    an error, and no list, exactly when its scan fails, and a list
    otherwise. *)
Theorem Init_and_Endpoints_fail_iff_scan_fails (s : Service) (db : Store.DB) :
  (∀ err, (Init s).1 = Some err ↔ Store.Find (connection s) = Err err) ∧
  ((Init s).1 = None ↔ ∃ es, Store.Find (connection s) = Ok es) ∧
  (∀ err, Store.Find (connection s) = Err err → (Init s).2 = s) ∧
  (∀ err, Store.Find db = Err err →
     idxEdgeID (Init (NewService db)).2 = ∅ ∧
     heartbeats (Init (NewService db)).2 = ∅) ∧
  (∀ err, Endpoints s = Err err ↔ Store.Find (connection s) = Err err) ∧
  ((∃ l, Endpoints s = Ok l) ↔ ∃ es, Store.Find (connection s) = Ok es).
Proof.
  unfold Init, Endpoints, endpoints. simpl.
  destruct (Store.Find (connection s)) as [es|e0] eqn:Hs;
    destruct (Store.Find db) as [es'|e1] eqn:Hdb; simpl;
    repeat split; try intros; try congruence; eauto;
    try (match goal with H : ∃ _, _ |- _ => destruct H; congruence end).
Qed.

Example Init_on_unavailable_store :
  Init (NewService Sample.down) =
    (Some "connection refused", NewService Sample.down) ∧
  Endpoints (NewService Sample.down) = Err "connection refused".
Proof. split; reflexivity. Qed.

(** ** [Endpoints] *)

Lemma Endpoints_loop_overlay es s :
  Endpoints_loop es s = overlay_heartbeat s <$> es.
Proof.
  induction es as [|e es IH]; simpl; [done|].
  unfold Heartbeat, overlay_heartbeat at 1.
  destruct (heartbeats s !! ID e); simpl; by rewrite IH.
Qed.

(** C4, as the code has it.  When the scan of the store succeeds,
    [Endpoints] returns the scanned records in scan order, each with its
    last-check-in field replaced by the cached heartbeat where the cache
    has an entry for its ID, and by zero where it has none; every other
    field is the scanned one. *)
Theorem Endpoints_overlays_heartbeat_or_zero (s : Service) (es : list Endpoint) :
  Store.Find (connection s) = Ok es →
  ∃ l, Endpoints s = Ok l ∧
       length l = length es ∧
       ∀ i e, es !! i = Some e →
         ∃ e', l !! i = Some e' ∧
               ID e' = ID e ∧ Name e' = Name e ∧ EdgeID e' = EdgeID e ∧
               EdgeKey e' = EdgeKey e ∧
               LastCheckInDate e' =
                 match heartbeats s !! ID e with
                 | Some t => t
                 | None => 0%Z
                 end.
Proof.
  intros Hscan. unfold Endpoints, endpoints. rewrite Hscan.
  exists (overlay_heartbeat s <$> es).
  split; [by rewrite Endpoints_loop_overlay|].
  split; [by rewrite length_fmap|].
  intros i e Hi. exists (overlay_heartbeat s e).
  rewrite list_lookup_fmap, Hi. simpl.
  unfold overlay_heartbeat. by destruct (heartbeats s !! ID e).
Qed.

Lemma Endpoints_overlays_heartbeat_or_zero_witness :
  ∃ l, Endpoints (UpdateHeartbeat 9 300 (NewService Sample.db3)) = Ok l ∧
       length l = length [Sample.e7; Sample.e8; Sample.e9] ∧
       ∀ i e, [Sample.e7; Sample.e8; Sample.e9] !! i = Some e →
         ∃ e', l !! i = Some e' ∧
               ID e' = ID e ∧ Name e' = Name e ∧ EdgeID e' = EdgeID e ∧
               EdgeKey e' = EdgeKey e ∧
               LastCheckInDate e' =
                 match heartbeats (UpdateHeartbeat 9 300 (NewService Sample.db3))
                         !! ID e with
                 | Some t => t
                 | None => 0%Z
                 end.
Proof.
  apply (Endpoints_overlays_heartbeat_or_zero
           (UpdateHeartbeat 9 300 (NewService Sample.db3))).
  reflexivity.
Defined.

(** C4, as the claim words it, fails.  Record 7 is created after [Init]
    with the persisted last-check-in value 100; the cache has no entry for
    it, and [Endpoints] lists it with zero, not with 100. *)
Lemma Endpoints_drops_persisted_value :
  let s := (Create Sample.e7 (Init (NewService Sample.db0)).2).1.2 in
  Store.Find (connection s) = Ok [Sample.e7] ∧
  heartbeats s !! 7%Z = None ∧
  LastCheckInDate Sample.e7 = 100%Z ∧
  Endpoints s = Ok [set_LastCheckInDate 0 Sample.e7] ∧
  Endpoints s ≠ Ok (overlay_keeping_persisted s <$> [Sample.e7]).
Proof. vm_compute. repeat split; try done. Qed.

(** ** [UpdateHeartbeat] and [Heartbeat] *)

Lemma Heartbeat_UpdateHeartbeat id now s :
  Heartbeat id (UpdateHeartbeat id now s) = (now, true).
Proof. unfold Heartbeat, UpdateHeartbeat. simpl. by rewrite lookup_insert_eq. Qed.

Lemma heartbeat_trace_clock id clock s :
  heartbeat_trace id clock s = (λ now, (now, true)) <$> clock.
Proof.
  revert s. induction clock as [|now later IH]; intros s; simpl; [done|].
  by rewrite Heartbeat_UpdateHeartbeat, IH.
Qed.

(** C5, as the code has it.  [UpdateHeartbeat] followed by [Heartbeat] on
    the same ID returns found = true and the clock reading of the call;
    that timestamp is at least the one held for the ID before the call
    whenever the clock reading is not earlier than the held one.  Over a
    sequence of calls on one ID at non-decreasing clock readings the
    observed heartbeats are all found and non-decreasing. *)
Theorem UpdateHeartbeat_then_Heartbeat (id : EndpointID) (now : Z) (s : Service) :
  Heartbeat id (UpdateHeartbeat id now s) = (now, true) ∧
  (∀ held, Heartbeat id s = (held, true) → (held ≤ now)%Z →
     (held ≤ (Heartbeat id (UpdateHeartbeat id now s)).1)%Z) ∧
  (∀ clock, Sorted Z.le clock →
     Forall (λ o, o.2 = true) (heartbeat_trace id clock s) ∧
     Sorted Z.le (fst <$> heartbeat_trace id clock s)).
Proof.
  split; [apply Heartbeat_UpdateHeartbeat|]. split.
  - intros held _ Hle. by rewrite Heartbeat_UpdateHeartbeat.
  - intros clock Hsorted. rewrite heartbeat_trace_clock. split.
    + apply Forall_fmap, Forall_true. done.
    + replace (fst <$> ((λ t : Z, (t, true)) <$> clock)) with clock; [done|].
      clear Hsorted. induction clock as [|t clock IH]; [done|].
      rewrite !fmap_cons. simpl. by rewrite <- IH.
Qed.

Example heartbeat_trace_sample :
  heartbeat_trace 7 [100; 100; 105; 230]%Z (NewService Sample.db3) =
    [(100, true); (100, true); (105, true); (230, true)]%Z.
Proof. reflexivity. Qed.

(** C5, as the claim words it, fails.  Record 9 is seeded by [Init] with
    the persisted heartbeat 250; a call whose clock reads 200 leaves the
    heartbeat 200, less than the one held before. *)
Lemma UpdateHeartbeat_can_decrease :
  let s := (Init (NewService Sample.db3)).2 in
  Heartbeat 9 s = (250%Z, true) ∧
  Heartbeat 9 (UpdateHeartbeat 9 200 s) = (200%Z, true) ∧
  (200 < 250)%Z.
Proof. vm_compute. done. Qed.

(** C7. A heartbeat recorded for [id1] leaves what [Heartbeat] returns for
    every other ID, value and presence, as it was, and leaves the edge-ID
    index (and so every lookup in it) and the store untouched. *)
Theorem UpdateHeartbeat_frame (id1 id2 : EndpointID) (now : Z) (s : Service) :
  id1 ≠ id2 →
  Heartbeat id2 (UpdateHeartbeat id1 now s) = Heartbeat id2 s ∧
  idxEdgeID (UpdateHeartbeat id1 now s) = idxEdgeID s ∧
  (∀ edgeID, EndpointIDByEdgeID edgeID (UpdateHeartbeat id1 now s) =
             EndpointIDByEdgeID edgeID s) ∧
  connection (UpdateHeartbeat id1 now s) = connection s.
Proof.
  intros Hne. unfold Heartbeat, UpdateHeartbeat, EndpointIDByEdgeID. simpl.
  by rewrite lookup_insert_ne.
Qed.

Lemma UpdateHeartbeat_frame_witness :
  let s := (Init (NewService Sample.db3)).2 in
  Heartbeat 9 (UpdateHeartbeat 7 300 s) = Heartbeat 9 s ∧
  idxEdgeID (UpdateHeartbeat 7 300 s) = idxEdgeID s ∧
  (∀ edgeID, EndpointIDByEdgeID edgeID (UpdateHeartbeat 7 300 s) =
             EndpointIDByEdgeID edgeID s) ∧
  connection (UpdateHeartbeat 7 300 s) = connection s.
Proof.
  apply (UpdateHeartbeat_frame 7 9 300 (Init (NewService Sample.db3)).2).
  lia.
Defined.

(** ** The mutators and the edge-ID index *)

Lemma unique_edgeIDs_same_ID es e1 e2 :
  unique_edgeIDs es → e1 ∈ es → e2 ∈ es →
  EdgeID e1 = EdgeID e2 → EdgeID e1 ≠ "" → ID e1 = ID e2.
Proof.
  intros Hu H1 H2 Heq Hne.
  pose proof (Init_loop_idx_in es (NewService Sample.db0) e1 Hu H1 Hne) as A.
  pose proof (Init_loop_idx_in es (NewService Sample.db0) e2 Hu H2) as B.
  rewrite <- Heq in B. specialize (B Hne). congruence.
Qed.

Lemma unique_IDs_same_record es e1 e2 :
  unique_IDs es → e1 ∈ es → e2 ∈ es → ID e1 = ID e2 → e1 = e2.
Proof.
  unfold unique_IDs. induction es as [|r es IH]; intros Hu H1 H2 Heq.
  - by inversion H1.
  - rewrite fmap_cons in Hu. apply NoDup_cons in Hu as [Hnotin Hu].
    apply elem_of_cons in H1 as [->|H1]; apply elem_of_cons in H2 as [->|H2].
    + done.
    + exfalso. apply Hnotin. rewrite Heq. by apply list_elem_of_fmap_2.
    + exfalso. apply Hnotin. rewrite <- Heq. by apply list_elem_of_fmap_2.
    + by apply IH.
Qed.

(** A successful [Init] of a newly constructed service is the loop over
    the rows of the store. *)
Lemma Init_NewService db :
  Store.unavailable db = None →
  Init (NewService db) = (None, Init_loop (Store.rows db) (NewService db)).
Proof.
  intros H. unfold Init, endpoints, Store.Find. simpl. by rewrite H.
Qed.

Lemma Create_ok e s s1 e' :
  Create e s = (None, s1, e') →
  Store.unavailable (connection s1) = None ∧
  Store.rows (connection s1) = Store.rows (connection s) ++ [e'] ∧
  idxEdgeID s1 = idxEdgeID s ∧ heartbeats s1 = heartbeats s ∧
  EdgeID e' = EdgeID e.
Proof.
  unfold Create, Store.Create.
  destruct (Store.unavailable (connection s)) eqn:Hav; [done|].
  destruct (Store.has_row _ _); [done|].
  intros [= <- <-]. simpl. rewrite Hav.
  repeat split. by case_bool_decide.
Qed.

Lemma DeleteEndpoint_ok id s s1 :
  DeleteEndpoint id s = (None, s1) →
  Store.unavailable (connection s1) = None ∧
  Store.rows (connection s1) =
    List.filter (λ r, negb (bool_decide (ID r = id))) (Store.rows (connection s)) ∧
  idxEdgeID s1 = idxEdgeID s ∧ heartbeats s1 = heartbeats s.
Proof.
  unfold DeleteEndpoint, Store.Delete.
  destruct (Store.unavailable (connection s)) eqn:Hav; [done|].
  intros [= <-]. simpl. by rewrite Hav.
Qed.

Lemma has_row_elem_of id l :
  Store.has_row id l = true ↔ ∃ r, r ∈ l ∧ ID r = id.
Proof.
  unfold Store.has_row. rewrite existsb_exists.
  split; intros (r & Hin & H); exists r.
  - apply bool_decide_eq_true in H. by rewrite list_elem_of_In.
  - rewrite <- list_elem_of_In. by rewrite bool_decide_eq_true.
Qed.

Lemma replace_row_elem_of e l :
  Store.has_row (ID e) l = true → e ∈ Store.replace_row e l.
Proof.
  induction l as [|r l IH]; simpl; [done|].
  case_bool_decide; simpl; intros Hrow; [by left|]. right. by apply IH.
Qed.

Lemma UpdateEndpoint_ok id e s s1 e1 :
  UpdateEndpoint id e s = (None, s1, e1) →
  e1 = set_ID id e ∧
  Store.unavailable (connection s1) = None ∧
  set_ID id e ∈ Store.rows (connection s1) ∧
  idxEdgeID s1 = idxEdgeID s ∧ heartbeats s1 = heartbeats s.
Proof.
  unfold UpdateEndpoint, Store.Save.
  destruct (Store.unavailable (connection s)) eqn:Hav; [done|].
  destruct (Store.has_row _ _) eqn:Hrow; intros [= <- <-]; simpl; rewrite Hav;
    repeat split.
  - by apply replace_row_elem_of.
  - apply elem_of_app. right. by left.
Qed.

(** C1, as the code has it.  [Create] stores the record and leaves the
    edge-ID index as it was, so a lookup of the edge-ID right after the
    call returns what it returned before the call.  The lookup returns the
    ID of the created record once the registry is initialized again from
    the resulting store, in which the edge-ID is unique. *)
Theorem Create_index_after_Init (e e' : Endpoint) (s s1 : Service) :
  EdgeID e ≠ "" →
  Create e s = (None, s1, e') →
  unique_edgeIDs (Store.rows (connection s1)) →
  EndpointIDByEdgeID (EdgeID e) s1 = EndpointIDByEdgeID (EdgeID e) s ∧
  ∃ s2, Init s1 = (None, s2) ∧
        EndpointIDByEdgeID (EdgeID e) s2 = (ID e', true).
Proof.
  intros Hne Hc Hu.
  apply Create_ok in Hc as (Hav & Hrows & Hidx & _ & Hedge).
  split; [unfold EndpointIDByEdgeID; by rewrite Hidx|].
  exists (Init_loop (Store.rows (connection s1)) s1). split.
  - unfold Init, endpoints, Store.Find. by rewrite Hav.
  - unfold EndpointIDByEdgeID. rewrite <- Hedge.
    rewrite Init_loop_idx_in; [done|done| |congruence].
    rewrite Hrows. apply elem_of_app. right. by left.
Qed.

Lemma Create_index_after_Init_witness :
  let s := (Init (NewService Sample.db0)).2 in
  let s1 := (Create Sample.e7 s).1.2 in
  EndpointIDByEdgeID "edge-abc" s1 = EndpointIDByEdgeID "edge-abc" s ∧
  ∃ s2, Init s1 = (None, s2) ∧
        EndpointIDByEdgeID "edge-abc" s2 = (7%Z, true).
Proof.
  apply (Create_index_after_Init Sample.e7 Sample.e7
           (Init (NewService Sample.db0)).2
           (Create Sample.e7 (Init (NewService Sample.db0)).2).1.2).
  - vm_compute. discriminate.
  - reflexivity.
  - unfold unique_edgeIDs. by_evaluation.
Defined.

(** C1, as the claim words it, fails.  Record 7 with the edge-ID
    "edge-abc" is created on an initialized registry; the lookup of
    "edge-abc" right after the call finds nothing. *)
Lemma Create_does_not_index :
  let s := (Init (NewService Sample.db0)).2 in
  Create Sample.e7 s =
    (None, set_connection (Store.mkDB [Sample.e7] None) s, Sample.e7) ∧
  EdgeID Sample.e7 = "edge-abc" ∧ ID Sample.e7 = 7%Z ∧
  EndpointIDByEdgeID "edge-abc" (Create Sample.e7 s).1.2 = (0%Z, false).
Proof. vm_compute. done. Qed.

Lemma elem_of_delete_rows r id (l : list Endpoint) :
  r ∈ List.filter (λ r, negb (bool_decide (ID r = id))) l ↔ r ∈ l ∧ ID r ≠ id.
Proof.
  rewrite !list_elem_of_In, filter_In, negb_true_iff, bool_decide_eq_false.
  done.
Qed.

(** C2, as the code has it.  [DeleteEndpoint] removes the record from the
    store and leaves the edge-ID index as it was: the lookup of the former
    edge-ID right after the delete still returns the deleted ID.  A
    registry newly constructed over the resulting store and initialized
    does not find the edge-ID. *)
Theorem DeleteEndpoint_index_after_Init (e : Endpoint) (s s1 : Service) :
  e ∈ Store.rows (connection s) →
  unique_edgeIDs (Store.rows (connection s)) →
  EdgeID e ≠ "" →
  idxEdgeID s !! EdgeID e = Some (ID e) →
  DeleteEndpoint (ID e) s = (None, s1) →
  (∀ r, r ∈ Store.rows (connection s1) → ID r ≠ ID e) ∧
  EndpointIDByEdgeID (EdgeID e) s1 = (ID e, true) ∧
  ∃ s2, Init (NewService (connection s1)) = (None, s2) ∧
        EndpointIDByEdgeID (EdgeID e) s2 = (0%Z, false).
Proof.
  intros Hin Hu Hne Hidx Hd.
  apply DeleteEndpoint_ok in Hd as (Hav & Hrows & Hidx1 & _).
  split; [|split].
  - intros r. rewrite Hrows, elem_of_delete_rows. tauto.
  - unfold EndpointIDByEdgeID. by rewrite Hidx1, Hidx.
  - eexists. split; [by apply Init_NewService|].
    unfold EndpointIDByEdgeID.
    rewrite Init_loop_idx_other; [simpl; by rewrite lookup_empty|].
    rewrite elem_of_edgeIDs. intros (_ & r & Hr & Heq).
    rewrite Hrows in Hr. apply elem_of_delete_rows in Hr as [Hr Hid].
    apply Hid. apply (unique_edgeIDs_same_ID _ r e Hu); congruence.
Qed.

Lemma DeleteEndpoint_index_after_Init_witness :
  let s := (Init (NewService Sample.db3)).2 in
  let s1 := (DeleteEndpoint 7 s).2 in
  (∀ r, r ∈ Store.rows (connection s1) → ID r ≠ 7%Z) ∧
  EndpointIDByEdgeID "edge-abc" s1 = (7%Z, true) ∧
  ∃ s2, Init (NewService (connection s1)) = (None, s2) ∧
        EndpointIDByEdgeID "edge-abc" s2 = (0%Z, false).
Proof.
  apply (DeleteEndpoint_index_after_Init Sample.e7
           (Init (NewService Sample.db3)).2
           (DeleteEndpoint 7 (Init (NewService Sample.db3)).2).2).
  - by_evaluation.
  - unfold unique_edgeIDs. by_evaluation.
  - vm_compute. discriminate.
  - vm_compute. reflexivity.
  - vm_compute. reflexivity.
Defined.

(** C2, as the claim words it, fails.  Record 7 is indexed under
    "edge-abc"; its delete succeeds and removes it from the store, and the
    lookup of "edge-abc" still returns (7, true). *)
Lemma DeleteEndpoint_keeps_index_entry :
  let s := (Init (NewService Sample.db3)).2 in
  EndpointIDByEdgeID "edge-abc" s = (7%Z, true) ∧
  (DeleteEndpoint 7 s).1 = None ∧
  Store.rows (connection (DeleteEndpoint 7 s).2) = [Sample.e8; Sample.e9] ∧
  EndpointIDByEdgeID "edge-abc" (DeleteEndpoint 7 s).2 = (7%Z, true).
Proof. vm_compute. done. Qed.

(** C6, as the code has it.  [UpdateEndpoint] saves the record and leaves
    the edge-ID index as it was.  On a registry newly constructed over the
    resulting store (unique IDs, unique edge-IDs) and initialized, the
    lookup of the new edge-ID returns the ID of the environment, and no
    other edge-ID maps to that ID, so none is left under the old one. *)
Theorem UpdateEndpoint_index_after_Init (id : EndpointID) (e e1 : Endpoint)
    (s s1 : Service) :
  EdgeID e ≠ "" →
  UpdateEndpoint id e s = (None, s1, e1) →
  unique_IDs (Store.rows (connection s1)) →
  unique_edgeIDs (Store.rows (connection s1)) →
  idxEdgeID s1 = idxEdgeID s ∧
  ∃ s2, Init (NewService (connection s1)) = (None, s2) ∧
        EndpointIDByEdgeID (EdgeID e) s2 = (id, true) ∧
        ∀ old, old ≠ EdgeID e → idxEdgeID s2 !! old ≠ Some id.
Proof.
  intros Hne Hup Hids Hedges.
  apply UpdateEndpoint_ok in Hup as (_ & Hav & Hin & Hidx & _).
  split; [done|].
  eexists. split; [by apply Init_NewService|]. split.
  - unfold EndpointIDByEdgeID.
    change (EdgeID e) with (EdgeID (set_ID id e)).
    by rewrite Init_loop_idx_in.
  - intros old Hold [H|(r & Hr & Hedge & _ & Hid)]%Init_loop_idx_inv.
    + simpl in H. by rewrite lookup_empty in H.
    + assert (r = set_ID id e) as ->
        by (by apply (unique_IDs_same_record (Store.rows (connection s1)))).
      by simpl in Hedge.
Qed.

Lemma UpdateEndpoint_index_after_Init_witness :
  let s := (Init (NewService Sample.db3)).2 in
  let e := {| ID := 0; Name := "edge"; EdgeID := "edge-new"; EdgeKey := "k7";
              LastCheckInDate := 100 |} in
  let s1 := (UpdateEndpoint 7 e s).1.2 in
  idxEdgeID s1 = idxEdgeID s ∧
  ∃ s2, Init (NewService (connection s1)) = (None, s2) ∧
        EndpointIDByEdgeID "edge-new" s2 = (7%Z, true) ∧
        ∀ old, old ≠ "edge-new" → idxEdgeID s2 !! old ≠ Some 7%Z.
Proof.
  apply (UpdateEndpoint_index_after_Init 7
           {| ID := 0; Name := "edge"; EdgeID := "edge-new"; EdgeKey := "k7";
              LastCheckInDate := 100 |}
           {| ID := 7; Name := "edge"; EdgeID := "edge-new"; EdgeKey := "k7";
              LastCheckInDate := 100 |}
           (Init (NewService Sample.db3)).2).
  - vm_compute. discriminate.
  - reflexivity.
  - unfold unique_IDs. by_evaluation.
  - unfold unique_edgeIDs. by_evaluation.
Defined.

(** C6, as the claim words it, fails.  Record 7 is indexed under
    "edge-abc"; an update changes its edge-ID to "edge-new".  The lookup
    of "edge-new" finds nothing and "edge-abc" still maps to 7. *)
Lemma UpdateEndpoint_keeps_stale_index :
  let s := (Init (NewService Sample.db3)).2 in
  let e := {| ID := 7; Name := "edge"; EdgeID := "edge-new"; EdgeKey := "k7";
              LastCheckInDate := 100 |} in
  EndpointIDByEdgeID "edge-abc" s = (7%Z, true) ∧
  (UpdateEndpoint 7 e s).1.1 = None ∧
  Store.rows (connection (UpdateEndpoint 7 e s).1.2) = [e; Sample.e8; Sample.e9] ∧
  EndpointIDByEdgeID "edge-new" (UpdateEndpoint 7 e s).1.2 = (0%Z, false) ∧
  EndpointIDByEdgeID "edge-abc" (UpdateEndpoint 7 e s).1.2 = (7%Z, true).
Proof. vm_compute. done. Qed.

(** ** [UpdateEndpoint] and the key of the saved record *)



Lemma find_app_new e j l :
  Store.has_row j l = false →
  List.find (λ r, bool_decide (ID r = j)) (l ++ [e]) =
  if bool_decide (ID e = j) then Some e else None.
Proof.
  induction l as [|r l IH]; simpl; [done|].
  destruct (bool_decide (ID r = j)); simpl; [done|apply IH].
Qed.

Lemma find_app_old e j l :
  j ≠ ID e →
  List.find (λ r, bool_decide (ID r = j)) (l ++ [e]) =
  List.find (λ r, bool_decide (ID r = j)) l.
Proof.
  intros Hj. induction l as [|r l IH]; simpl.
  - by rewrite bool_decide_eq_false_2.
  - by rewrite IH.
Qed.



Example UpdateEndpoint_with_foreign_ID :
  let s := (Init (NewService Sample.db3)).2 in
  let e := {| ID := 9; Name := "renamed"; EdgeID := "edge-abc"; EdgeKey := "k7";
              LastCheckInDate := 100 |} in
  Store.rows (connection (UpdateEndpoint 7 e s).1.2) =
    [set_ID 7 e; Sample.e8; Sample.e9].
Proof. reflexivity. Qed.

(** ** The tunnel state machine *)

Lemma status_setActive id now port c :
  Tunnel.status id (Tunnel.setActive id now port c) = EdgeAgentActive.
Proof.
  unfold Tunnel.status, Tunnel.get, Tunnel.setActive. simpl.
  by rewrite lookup_insert_eq.
Qed.

Lemma get_sweep id now c :
  Tunnel.get id (Tunnel.sweep now c) =
  match Tunnel.tunnels c !! id with
  | Some t => Tunnel.demote now t
  | None => Tunnel.fresh
  end.
Proof.
  unfold Tunnel.get, Tunnel.sweep. simpl. rewrite lookup_fmap.
  by destruct (Tunnel.tunnels c !! id).
Qed.

(** The entry of [id] after [setRequired], [setActive] at [t0] and one
    sweep at [now]. *)
Lemma sweep_after_setActive id t0 port now c :
  Tunnel.get id
    (Tunnel.sweep now (Tunnel.setActive id t0 port (Tunnel.setRequired id c))) =
  Tunnel.demote now
    {| Tunnel.Status := EdgeAgentActive;
       Tunnel.Credentials := Tunnel.Credentials (Tunnel.get id c);
       Tunnel.Deadline := t0 + Tunnel.keepAliveDuration c;
       Tunnel.Port := port |}.
Proof.
  rewrite get_sweep. unfold Tunnel.setActive, Tunnel.get, Tunnel.setRequired.
  simpl. by rewrite !lookup_insert_eq.
Qed.

(** C9. [setRequired] on an ID, then [setActive] at [t0]: a sweep that runs
    before the keep-alive deadline [t0 + keepAliveDuration] leaves the
    tunnel Active, and with no further activity a sweep past the deadline
    leaves it Idle, whether or not an earlier sweep ran.  The state before
    the first call is arbitrary, a fresh ID included. *)
Theorem sweep_demotes_after_keep_alive (id : EndpointID) (t0 port early late : Z)
    (c : Tunnel.Coordinator) :
  (early < t0 + Tunnel.keepAliveDuration c)%Z →
  (t0 + Tunnel.keepAliveDuration c < late)%Z →
  let c1 := Tunnel.setActive id t0 port (Tunnel.setRequired id c) in
  Tunnel.status id (Tunnel.setRequired id c) = EdgeAgentManagementRequired ∧
  Tunnel.status id c1 = EdgeAgentActive ∧
  Tunnel.status id (Tunnel.sweep early c1) = EdgeAgentActive ∧
  Tunnel.status id (Tunnel.sweep late c1) = EdgeAgentIdle ∧
  Tunnel.status id (Tunnel.sweep late (Tunnel.sweep early c1)) = EdgeAgentIdle.
Proof.
  intros Hearly Hlate c1. subst c1.
  split; [|split; [|split; [|split]]].
  - unfold Tunnel.status, Tunnel.get, Tunnel.setRequired. simpl.
    by rewrite lookup_insert_eq.
  - apply status_setActive.
  - unfold Tunnel.status. rewrite sweep_after_setActive.
    unfold Tunnel.demote. simpl.
    destruct (Z.ltb_spec (t0 + Tunnel.keepAliveDuration c) early); [lia|done].
  - unfold Tunnel.status. rewrite sweep_after_setActive.
    unfold Tunnel.demote. simpl.
    destruct (Z.ltb_spec (t0 + Tunnel.keepAliveDuration c) late); [done|lia].
  - unfold Tunnel.status. rewrite get_sweep.
    pose proof (sweep_after_setActive id t0 port early c) as H.
    unfold Tunnel.get at 1 in H.
    destruct (Tunnel.tunnels (Tunnel.sweep early _) !! id) as [t|] eqn:E.
    + simpl in H. subst t. unfold Tunnel.demote at 2. simpl.
      destruct (Z.ltb_spec (t0 + Tunnel.keepAliveDuration c) early); [lia|].
      unfold Tunnel.demote. simpl.
      destruct (Z.ltb_spec (t0 + Tunnel.keepAliveDuration c) late); [done|lia].
    + done.
Qed.

(** The scenario of the specification: keep-alive 60 s, a fresh ID,
    [setActive] at t = 0; a sweep at t = 30 leaves the tunnel Active, a
    sweep at t = 61 leaves it Idle. *)
Lemma sweep_demotes_after_keep_alive_witness :
  let c := {| Tunnel.tunnels := ∅; Tunnel.keepAliveDuration := 60 |} in
  let c1 := Tunnel.setActive 7 0 8000 (Tunnel.setRequired 7 c) in
  Tunnel.status 7 (Tunnel.setRequired 7 c) = EdgeAgentManagementRequired ∧
  Tunnel.status 7 c1 = EdgeAgentActive ∧
  Tunnel.status 7 (Tunnel.sweep 30 c1) = EdgeAgentActive ∧
  Tunnel.status 7 (Tunnel.sweep 61 c1) = EdgeAgentIdle ∧
  Tunnel.status 7 (Tunnel.sweep 61 (Tunnel.sweep 30 c1)) = EdgeAgentIdle.
Proof.
  apply (sweep_demotes_after_keep_alive 7 0 8000 30 61
           {| Tunnel.tunnels := ∅; Tunnel.keepAliveDuration := 60 |}).
  - simpl. lia.
  - simpl. lia.
Defined.

Example tunnel_scenario_by_evaluation :
  let c := {| Tunnel.tunnels := ∅; Tunnel.keepAliveDuration := 60 |} in
  let c1 := Tunnel.setActive 7 0 8000 (Tunnel.setRequired 7 c) in
  Tunnel.status 7 c = "IDLE" ∧
  Tunnel.status 7 (Tunnel.sweep 30 c1) = "ACTIVE" ∧
  Tunnel.status 7 (Tunnel.sweep 60 c1) = "ACTIVE" ∧
  Tunnel.status 7 (Tunnel.sweep 61 (Tunnel.sweep 30 c1)) = "IDLE" ∧
  Tunnel.Port (Tunnel.get 7 (Tunnel.sweep 61 c1)) = 0%Z.
Proof. vm_compute. done. Qed.

(** * Further properties of the registry *)

(** ** What the loop of [Init] leaves in the two maps *)

Lemma Service_eq (a b : Service) :
  connection a = connection b → idxEdgeID a = idxEdgeID b →
  heartbeats a = heartbeats b → a = b.
Proof. destruct a, b; simpl. by intros -> -> ->. Qed.

Lemma last_with_edgeID_cons k e es :
  last_with_edgeID k (e :: es) =
    match last_with_edgeID k es with
    | Some i => Some i
    | None => if bool_decide (EdgeID e = k) then Some (ID e) else None
    end.
Proof.
  unfold last_with_edgeID. rewrite filter_cons.
  destruct (decide (EdgeID e = k)) as [Heq|Hne].
  - rewrite bool_decide_eq_true_2 by done. rewrite fmap_cons. apply last_cons.
  - rewrite bool_decide_eq_false_2 by done. by destruct (last _).
Qed.

Lemma last_checkin_of_cons i e es :
  last_checkin_of i (e :: es) =
    match last_checkin_of i es with
    | Some t => Some t
    | None => if bool_decide (ID e = i) then Some (LastCheckInDate e) else None
    end.
Proof.
  unfold last_checkin_of. rewrite filter_cons.
  destruct (decide (ID e = i)) as [Heq|Hne].
  - rewrite bool_decide_eq_true_2 by done. rewrite fmap_cons. apply last_cons.
  - rewrite bool_decide_eq_false_2 by done. by destruct (last _).
Qed.

(** The index after the loop: the last scanned record with a non-empty
    edge-ID decides, and an edge-ID that no record carries keeps the entry
    it had. *)
Lemma Init_loop_idx_lookup es s k :
  idxEdgeID (Init_loop es s) !! k =
    match (if bool_decide (k = "") then None else last_with_edgeID k es) with
    | Some i => Some i
    | None => idxEdgeID s !! k
    end.
Proof.
  revert s. induction es as [|e es IH]; intros s; simpl.
  - by case_bool_decide.
  - rewrite IH, Init_body_idx, last_with_edgeID_cons.
    destruct (decide (k = "")) as [->|Hk].
    + rewrite (bool_decide_eq_true_2 ("" = "")) by done. simpl.
      destruct (bool_decide (EdgeID e ≠ "")) eqn:He; [|done].
      apply bool_decide_eq_true in He. by rewrite lookup_insert_ne.
    + rewrite (bool_decide_eq_false_2 (k = "")) by done. simpl.
      destruct (last_with_edgeID k es); [done|].
      destruct (decide (EdgeID e = k)) as [Heq|Hne].
      * rewrite (bool_decide_eq_true_2 (EdgeID e = k)) by done.
        rewrite (bool_decide_eq_true_2 (EdgeID e ≠ "")) by congruence.
        by rewrite <- Heq, lookup_insert_eq.
      * rewrite (bool_decide_eq_false_2 (EdgeID e = k)) by done.
        destruct (bool_decide (EdgeID e ≠ "")); [by rewrite lookup_insert_ne|done].
Qed.

Lemma Init_loop_heartbeats_lookup es s i :
  heartbeats (Init_loop es s) !! i =
    match last_checkin_of i es with
    | Some t => Some t
    | None => heartbeats s !! i
    end.
Proof.
  revert s. induction es as [|e es IH]; intros s; simpl; [done|].
  rewrite IH, Init_body_heartbeats, last_checkin_of_cons.
  destruct (last_checkin_of i es); [done|].
  destruct (decide (ID e = i)) as [<-|Hne].
  - rewrite bool_decide_eq_true_2 by done. by rewrite lookup_insert_eq.
  - rewrite bool_decide_eq_false_2 by done. by rewrite lookup_insert_ne.
Qed.

Lemma Init_loop_idempotent es s :
  Init_loop es (Init_loop es s) = Init_loop es s.
Proof.
  apply Service_eq.
  - by rewrite !Init_loop_connection.
  - apply map_eq. intros k. rewrite Init_loop_idx_lookup.
    destruct (if bool_decide (k = "") then None else last_with_edgeID k es)
      as [i|] eqn:E; [|done].
    by rewrite Init_loop_idx_lookup, E.
  - apply map_eq. intros i. rewrite Init_loop_heartbeats_lookup.
    destruct (last_checkin_of i es) as [t|] eqn:E; [|done].
    by rewrite Init_loop_heartbeats_lookup, E.
Qed.

(** X1. Whatever the store holds, after a successful [Init] of a newly
    constructed service the lookup of an edge-ID returns the ID of the
    last scanned record that carries it: when several records share an
    edge-ID the later one overwrites the earlier.  The empty edge-ID and
    an edge-ID that no record carries are not found. *)
Theorem Init_last_record_wins (db : Store.DB) (s' : Service) (k : string) :
  Init (NewService db) = (None, s') →
  EndpointIDByEdgeID k s' =
    match (if bool_decide (k = "") then None
           else last_with_edgeID k (Store.rows db)) with
    | Some i => (i, true)
    | None => (0%Z, false)
    end.
Proof.
  intros (es & Hscan & ->)%Init_ok.
  unfold endpoints, Store.Find in Hscan. simpl in Hscan.
  destruct (Store.unavailable db); [done|]. injection Hscan as <-.
  unfold EndpointIDByEdgeID. rewrite Init_loop_idx_lookup.
  destruct (if bool_decide (k = "") then None else _); [done|].
  simpl. by rewrite lookup_empty.
Qed.

Lemma Init_last_record_wins_witness :
  EndpointIDByEdgeID "edge-abc" (Init (NewService Sample.dup)).2 =
    match (if bool_decide ("edge-abc" = "") then None
           else last_with_edgeID "edge-abc" (Store.rows Sample.dup)) with
    | Some i => (i, true)
    | None => (0%Z, false)
    end.
Proof.
  apply (Init_last_record_wins Sample.dup (Init (NewService Sample.dup)).2).
  reflexivity.
Defined.

Example Init_dup_lookup :
  EndpointIDByEdgeID "edge-abc" (Init (NewService Sample.dup)).2 = (10%Z, true).
Proof. vm_compute. done. Qed.

(** X2. [Init] never removes anything: an edge-ID that resolved before the
    call resolves after it, an ID that had a heartbeat still has one, and
    an entry whose edge-ID (or ID) no stored record carries is returned
    unchanged.  The store is not written. *)
Theorem Init_never_removes (s : Service) :
  (∀ k, (EndpointIDByEdgeID k s).2 = true →
        (EndpointIDByEdgeID k (Init s).2).2 = true) ∧
  (∀ i, (Heartbeat i s).2 = true → (Heartbeat i (Init s).2).2 = true) ∧
  (∀ k, k ∉ edgeIDs (Store.rows (connection s)) →
        EndpointIDByEdgeID k (Init s).2 = EndpointIDByEdgeID k s) ∧
  (∀ i, i ∉ ID <$> Store.rows (connection s) →
        Heartbeat i (Init s).2 = Heartbeat i s) ∧
  connection (Init s).2 = connection s.
Proof.
  unfold Init, endpoints, Store.Find, EndpointIDByEdgeID, Heartbeat.
  destruct (Store.unavailable (connection s)); simpl; [done|].
  split; [|split; [|split; [|split]]].
  - intros k. rewrite Init_loop_idx_lookup.
    by destruct (if bool_decide (k = "") then None else _).
  - intros i. rewrite Init_loop_heartbeats_lookup.
    by destruct (last_checkin_of i _).
  - intros k Hk. by rewrite Init_loop_idx_other.
  - intros i Hi. by rewrite Init_loop_heartbeats_other.
  - apply Init_loop_connection.
Qed.

(** X3. [Init] is idempotent: a second [Init] over the same store leaves
    the service exactly as the first one did, and returns the same
    result. *)
Theorem Init_idempotent (s : Service) :
  Init (Init s).2 = Init s.
Proof.
  unfold Init, endpoints, Store.Find.
  destruct (Store.unavailable (connection s)) eqn:Hav; simpl.
  - by rewrite Hav.
  - rewrite Init_loop_connection, Hav. by rewrite Init_loop_idempotent.
Qed.

(** ** Listing, heartbeats and [Init] together *)

Lemma set_LastCheckInDate_same e : set_LastCheckInDate (LastCheckInDate e) e = e.
Proof. by destruct e. Qed.

Lemma fmap_ext_elem_of {A B} (f g : A → B) (l : list A) :
  (∀ x, x ∈ l → f x = g x) → f <$> l = g <$> l.
Proof.
  induction l as [|x l IH]; intros H; [done|].
  rewrite !fmap_cons, H, IH; [done| |by left].
  intros y Hy. apply H. by right.
Qed.

(** X4. After a successful [Init] over a store with unique IDs, and before
    any heartbeat is recorded, [Endpoints] returns the stored records
    exactly as persisted, in scan order: the overlay changes nothing,
    whatever the heartbeat cache held before [Init]. *)
Theorem Endpoints_after_Init (s s' : Service) :
  unique_IDs (Store.rows (connection s)) →
  Init s = (None, s') →
  Endpoints s' = Ok (Store.rows (connection s)).
Proof.
  intros Hu (es & Hscan & ->)%Init_ok.
  unfold Endpoints, endpoints in *. rewrite Init_loop_connection, Hscan.
  unfold Store.Find in Hscan.
  destruct (Store.unavailable (connection s)); [done|]. injection Hscan as <-.
  rewrite Endpoints_loop_overlay. f_equal.
  rewrite <- (list_fmap_id (Store.rows (connection s))) at 3.
  apply fmap_ext_elem_of. intros e He. unfold overlay_heartbeat.
  rewrite Init_loop_heartbeats_in by done. simpl.
  apply set_LastCheckInDate_same.
Qed.

Lemma Endpoints_after_Init_witness :
  Endpoints (Init (UpdateHeartbeat 7 999 (NewService Sample.db3))).2 =
    Ok (Store.rows (connection (UpdateHeartbeat 7 999 (NewService Sample.db3)))).
Proof.
  apply (Endpoints_after_Init (UpdateHeartbeat 7 999 (NewService Sample.db3))).
  - unfold unique_IDs. by_evaluation.
  - reflexivity.
Defined.

(** X5. A heartbeat recorded for [id] at [now] changes the listing in one
    way only: the records with that ID are listed with last-check-in
    [now]; every other record, the order and the outcome (list or error)
    are those of the listing before the call. *)
Theorem Endpoints_after_UpdateHeartbeat (id : EndpointID) (now : Z) (s : Service) :
  Endpoints (UpdateHeartbeat id now s) =
    match Endpoints s with
    | Err err => Err err
    | Ok l => Ok (with_heartbeat id now <$> l)
    end.
Proof.
  unfold Endpoints, endpoints. simpl.
  destruct (Store.Find (connection s)) as [es|err]; [|done].
  rewrite !Endpoints_loop_overlay, <- list_fmap_compose. f_equal.
  apply fmap_ext_elem_of. intros e _.
  unfold overlay_heartbeat, with_heartbeat, UpdateHeartbeat. simpl.
  destruct (decide (ID e = id)) as [Heq|Hne].
  - rewrite bool_decide_eq_true_2 by done.
    by rewrite Heq, lookup_insert_eq.
  - rewrite bool_decide_eq_false_2 by done.
    by rewrite lookup_insert_ne.
Qed.

Example Endpoints_after_heartbeat_sample :
  Endpoints (UpdateHeartbeat 8 300 (Init (NewService Sample.db3)).2) =
    Ok [Sample.e7; set_LastCheckInDate 300 Sample.e8; Sample.e9].
Proof. vm_compute. done. Qed.

(** X6. On a newly constructed service, before [Init] has run, no edge-ID
    resolves and no ID has a heartbeat, whatever the store holds, and
    [Endpoints] lists every stored record with last-check-in zero. *)
Theorem NewService_misses (db : Store.DB) :
  (∀ k, EndpointIDByEdgeID k (NewService db) = (0%Z, false)) ∧
  (∀ i, Heartbeat i (NewService db) = (0%Z, false)) ∧
  Endpoints (NewService db) =
    match Store.Find db with
    | Err err => Err err
    | Ok es => Ok (set_LastCheckInDate 0 <$> es)
    end.
Proof.
  split; [|split].
  - intros k. unfold EndpointIDByEdgeID. simpl. by rewrite lookup_empty.
  - intros i. unfold Heartbeat. simpl. by rewrite lookup_empty.
  - unfold Endpoints, endpoints. simpl.
    destruct (Store.Find db) as [es|err]; [|done].
    rewrite Endpoints_loop_overlay. reflexivity.
Qed.

(** X7. For one ID the last heartbeat wins: a second [UpdateHeartbeat]
    leaves the service as if the first had not happened.  Heartbeats for
    different IDs commute: the order of the two calls does not matter. *)
Theorem UpdateHeartbeat_last_wins_and_commutes (id1 id2 : EndpointID)
    (t1 t2 : Z) (s : Service) :
  UpdateHeartbeat id1 t2 (UpdateHeartbeat id1 t1 s) = UpdateHeartbeat id1 t2 s ∧
  (id1 ≠ id2 →
   UpdateHeartbeat id1 t1 (UpdateHeartbeat id2 t2 s) =
   UpdateHeartbeat id2 t2 (UpdateHeartbeat id1 t1 s)).
Proof.
  split.
  - apply Service_eq; [done..|]. simpl. apply insert_insert_eq.
  - intros Hne. apply Service_eq; [done..|]. simpl. by apply insert_insert_ne.
Qed.

(** X8. [Init] overwrites recorded heartbeats: after [Init] the heartbeat
    of every stored record (IDs unique) is its persisted last-check-in
    value again, also when a later heartbeat had been recorded for it. *)
Theorem Init_resets_heartbeat (e : Endpoint) (now : Z) (s s' : Service) :
  unique_IDs (Store.rows (connection s)) →
  e ∈ Store.rows (connection s) →
  Init (UpdateHeartbeat (ID e) now s) = (None, s') →
  Heartbeat (ID e) (UpdateHeartbeat (ID e) now s) = (now, true) ∧
  Heartbeat (ID e) s' = (LastCheckInDate e, true).
Proof.
  intros Hu He (es & Hscan & ->)%Init_ok.
  split; [apply Heartbeat_UpdateHeartbeat|].
  unfold endpoints, Store.Find in Hscan. simpl in Hscan.
  destruct (Store.unavailable (connection s)); [done|]. injection Hscan as <-.
  unfold Heartbeat. by rewrite Init_loop_heartbeats_in.
Qed.

Lemma Init_resets_heartbeat_witness :
  let s := (Init (NewService Sample.db3)).2 in
  Heartbeat 9 (UpdateHeartbeat 9 900 s) = (900%Z, true) ∧
  Heartbeat 9 (Init (UpdateHeartbeat 9 900 s)).2 = (250%Z, true).
Proof.
  apply (Init_resets_heartbeat Sample.e9 900 (Init (NewService Sample.db3)).2).
  - unfold unique_IDs. by_evaluation.
  - by_evaluation.
  - reflexivity.
Defined.

(** ** The mutators, the lookup by ID and the listing *)

Lemma set_connection_same s : set_connection (connection s) s = s.
Proof. by destruct s. Qed.

(** X9. [Create], [UpdateEndpoint] and [DeleteEndpoint] never touch the
    edge-ID index or the heartbeat cache, whether the store accepts the
    call or not: every edge-ID lookup and every heartbeat lookup returns
    after the call what it returned before.  In particular the heartbeat
    of a deleted ID stays in the cache. *)
Theorem mutators_leave_index_and_heartbeats (e : Endpoint) (id : EndpointID)
    (s : Service) :
  (∀ k, EndpointIDByEdgeID k (Create e s).1.2 = EndpointIDByEdgeID k s) ∧
  (∀ i, Heartbeat i (Create e s).1.2 = Heartbeat i s) ∧
  (∀ k, EndpointIDByEdgeID k (UpdateEndpoint id e s).1.2 = EndpointIDByEdgeID k s) ∧
  (∀ i, Heartbeat i (UpdateEndpoint id e s).1.2 = Heartbeat i s) ∧
  (∀ k, EndpointIDByEdgeID k (DeleteEndpoint id s).2 = EndpointIDByEdgeID k s) ∧
  (∀ i, Heartbeat i (DeleteEndpoint id s).2 = Heartbeat i s).
Proof.
  assert (idxEdgeID (Create e s).1.2 = idxEdgeID s ∧
          heartbeats (Create e s).1.2 = heartbeats s) as [C1 C2].
  { unfold Create. destruct (Store.Create e (connection s)) as [[[err|] db] e'];
      done. }
  assert (idxEdgeID (UpdateEndpoint id e s).1.2 = idxEdgeID s ∧
          heartbeats (UpdateEndpoint id e s).1.2 = heartbeats s) as [U1 U2].
  { unfold UpdateEndpoint.
    destruct (Store.Save (set_ID id e) (connection s)) as [[err|] db]; done. }
  assert (idxEdgeID (DeleteEndpoint id s).2 = idxEdgeID s ∧
          heartbeats (DeleteEndpoint id s).2 = heartbeats s) as [D1 D2].
  { unfold DeleteEndpoint.
    destruct (Store.Delete id (connection s)) as [[err|] db]; done. }
  unfold EndpointIDByEdgeID, Heartbeat.
  rewrite C1, C2, U1, U2, D1, D2. done.
Qed.

(** X10. While the store is unavailable, [Create], [UpdateEndpoint],
    [DeleteEndpoint] and [Endpoint] return the error of the store
    unchanged and leave the service as it was.  [UpdateEndpoint] has
    overwritten the ID field of the caller's record all the same: the
    assignment precedes the save. *)
Theorem store_error_is_returned_unchanged (err : error) (e : Endpoint)
    (id : EndpointID) (s : Service) :
  Store.unavailable (connection s) = Some err →
  Create e s = (Some err, s, e) ∧
  UpdateEndpoint id e s = (Some err, s, set_ID id e) ∧
  DeleteEndpoint id s = (Some err, s) ∧
  EndpointByID id s = Err err.
Proof.
  intros Hav.
  unfold Create, Store.Create, UpdateEndpoint, Store.Save, DeleteEndpoint,
    Store.Delete, EndpointByID, Store.GetObject, Store.GetByID.
  rewrite Hav, set_connection_same. done.
Qed.

Lemma store_error_is_returned_unchanged_witness :
  let s := NewService Sample.down in
  Create Sample.e10 s = (Some "connection refused", s, Sample.e10) ∧
  UpdateEndpoint 7 Sample.e10 s =
    (Some "connection refused", s, set_ID 7 Sample.e10) ∧
  DeleteEndpoint 7 s = (Some "connection refused", s) ∧
  EndpointByID 7 s = Err "connection refused".
Proof.
  apply (store_error_is_returned_unchanged "connection refused" Sample.e10 7
           (NewService Sample.down)).
  reflexivity.
Defined.

Lemma has_row_false_find id l :
  Store.has_row id l = false →
  List.find (λ r, bool_decide (ID r = id)) l = None.
Proof.
  induction l as [|r l IH]; simpl; [done|].
  destruct (bool_decide (ID r = id)); simpl; [done|apply IH].
Qed.

(** X11. A record that [Create] has stored is the one [Endpoint] returns
    for its ID, with the ID that the creation assigned; the outcome of
    [Endpoint] for every other ID is what it was before the creation. *)
Theorem Create_then_EndpointByID (e e' : Endpoint) (s s1 : Service) :
  Create e s = (None, s1, e') →
  EndpointByID (ID e') s1 = Ok e' ∧
  (∃ err, EndpointByID (ID e') s = Err err) ∧
  (∀ j, j ≠ ID e' → EndpointByID j s1 = EndpointByID j s).
Proof.
  unfold Create, Store.Create, EndpointByID, Store.GetObject, Store.GetByID.
  destruct (Store.unavailable (connection s)) eqn:Hav; [done|].
  set (e0 := if bool_decide (ID e = 0%Z) then _ else e).
  destruct (Store.has_row (ID e0) (Store.rows (connection s))) eqn:Hrow; [done|].
  intros [= <- <-]. simpl. rewrite Hav.
  split; [|split].
  - rewrite find_app_new by done. by rewrite bool_decide_eq_true_2.
  - rewrite has_row_false_find by done. by eexists.
  - intros j Hj. by rewrite find_app_old.
Qed.

Lemma Create_then_EndpointByID_witness :
  let s := (Init (NewService Sample.db3)).2 in
  let s1 := (Create Sample.e10 s).1.2 in
  EndpointByID 10 s1 = Ok Sample.e10 ∧
  (∃ err, EndpointByID 10 s = Err err) ∧
  (∀ j, j ≠ 10%Z → EndpointByID j s1 = EndpointByID j s).
Proof.
  apply (Create_then_EndpointByID Sample.e10 Sample.e10
           (Init (NewService Sample.db3)).2).
  reflexivity.
Defined.

Lemma find_delete_rows_eq id (l : list Endpoint) :
  List.find (λ r, bool_decide (ID r = id))
    (List.filter (λ r, negb (bool_decide (ID r = id))) l) = None.
Proof.
  induction l as [|r l IH]; simpl; [done|].
  destruct (bool_decide (ID r = id)) eqn:E; simpl; [done|]. by rewrite E.
Qed.

Lemma find_delete_rows_ne id j (l : list Endpoint) :
  j ≠ id →
  List.find (λ r, bool_decide (ID r = j))
    (List.filter (λ r, negb (bool_decide (ID r = id))) l) =
  List.find (λ r, bool_decide (ID r = j)) l.
Proof.
  intros Hj. induction l as [|r l IH]; simpl; [done|].
  destruct (bool_decide (ID r = id)) eqn:E; simpl.
  - apply bool_decide_eq_true in E.
    rewrite (bool_decide_eq_false_2 (ID r = j)) by congruence. done.
  - by rewrite IH.
Qed.

Lemma DeleteEndpoint_lookups id s s1 :
  DeleteEndpoint id s = (None, s1) →
  (∃ err, EndpointByID id s1 = Err err) ∧
  (∀ j, j ≠ id → EndpointByID j s1 = EndpointByID j s).
Proof.
  unfold DeleteEndpoint, Store.Delete.
  destruct (Store.unavailable (connection s)) eqn:Hav; [done|].
  intros [= <-].
  unfold EndpointByID, Store.GetObject, Store.GetByID. simpl. rewrite Hav.
  split.
  - rewrite find_delete_rows_eq. by eexists.
  - intros j Hj. by rewrite find_delete_rows_ne.
Qed.

(** X12. After a successful [DeleteEndpoint] the lookup of the deleted ID
    by [Endpoint] fails with an error, and the outcome of [Endpoint] for
    every other ID is what it was before. *)
Theorem DeleteEndpoint_then_EndpointByID (id : EndpointID) (s s1 : Service) :
  DeleteEndpoint id s = (None, s1) →
  (∃ err, EndpointByID id s1 = Err err) ∧
  (∀ j, j ≠ id → EndpointByID j s1 = EndpointByID j s).
Proof.
  intros Hd. split.
  - by apply (DeleteEndpoint_lookups id s s1).
  - intros j Hj. by apply (DeleteEndpoint_lookups id s s1).
Qed.

Lemma DeleteEndpoint_then_EndpointByID_witness :
  let s := (Init (NewService Sample.db3)).2 in
  let s1 := (DeleteEndpoint 7 s).2 in
  (∃ err, EndpointByID 7 s1 = Err err) ∧
  (∀ j, j ≠ 7%Z → EndpointByID j s1 = EndpointByID j s).
Proof.
  apply (DeleteEndpoint_then_EndpointByID 7 (Init (NewService Sample.db3)).2).
  reflexivity.
Defined.

Lemma overlay_heartbeat_ID s e : ID (overlay_heartbeat s e) = ID e.
Proof. done. Qed.

Lemma filter_fmap_overlay s id (l : list Endpoint) :
  List.filter (λ r, negb (bool_decide (ID r = id))) (overlay_heartbeat s <$> l) =
  overlay_heartbeat s <$> List.filter (λ r, negb (bool_decide (ID r = id))) l.
Proof.
  induction l as [|r l IH]; [done|].
  rewrite fmap_cons. simpl.
  destruct (bool_decide (ID r = id)); simpl; by rewrite IH.
Qed.

(** X13. After a successful [DeleteEndpoint] the listing of [Endpoints] is
    the listing before the call without the records of the deleted ID:
    no record with that ID is listed, and the other records keep their
    order and their listed last-check-in values. *)
Theorem DeleteEndpoint_then_Endpoints (id : EndpointID) (s s1 : Service) :
  DeleteEndpoint id s = (None, s1) →
  ∃ l, Endpoints s = Ok l ∧
       Endpoints s1 =
         Ok (List.filter (λ r, negb (bool_decide (ID r = id))) l) ∧
       ∀ r l1, Endpoints s1 = Ok l1 → r ∈ l1 → ID r ≠ id.
Proof.
  unfold DeleteEndpoint, Store.Delete.
  destruct (Store.unavailable (connection s)) eqn:Hav; [done|].
  intros [= <-].
  unfold Endpoints, endpoints, Store.Find. simpl. rewrite Hav.
  eexists. split; [done|].
  rewrite !Endpoints_loop_overlay.
  assert (∀ l, overlay_heartbeat
                 (set_connection
                    (Store.set_rows
                       (List.filter (λ r, negb (bool_decide (ID r = id)))
                          (Store.rows (connection s))) (connection s)) s) <$> l
               = overlay_heartbeat s <$> l) as -> by done.
  rewrite filter_fmap_overlay. split; [done|].
  intros r l1 [= <-] Hr.
  apply list_elem_of_fmap in Hr as (r0 & -> & Hr0).
  apply elem_of_delete_rows in Hr0 as [_ Hne]. done.
Qed.

Lemma DeleteEndpoint_then_Endpoints_witness :
  let s := UpdateHeartbeat 9 300 (Init (NewService Sample.db3)).2 in
  let s1 := (DeleteEndpoint 8 s).2 in
  ∃ l, Endpoints s = Ok l ∧
       Endpoints s1 =
         Ok (List.filter (λ r, negb (bool_decide (ID r = 8%Z))) l) ∧
       ∀ r l1, Endpoints s1 = Ok l1 → r ∈ l1 → ID r ≠ 8%Z.
Proof.
  apply (DeleteEndpoint_then_Endpoints 8
           (UpdateHeartbeat 9 300 (Init (NewService Sample.db3)).2)).
  reflexivity.
Defined.

(** X14. A repeated [Init] on the same service does not purge the index
    entry of a deleted environment: after [DeleteEndpoint] and a second
    [Init], the former edge-ID (unique in the store) still resolves to
    the deleted ID, although the store no longer holds the record. *)
Theorem Init_after_DeleteEndpoint_keeps_entry (e : Endpoint) (s s1 s2 : Service) :
  e ∈ Store.rows (connection s) →
  unique_edgeIDs (Store.rows (connection s)) →
  EdgeID e ≠ "" →
  EndpointIDByEdgeID (EdgeID e) s = (ID e, true) →
  DeleteEndpoint (ID e) s = (None, s1) →
  Init s1 = (None, s2) →
  EndpointIDByEdgeID (EdgeID e) s2 = (ID e, true) ∧
  ∃ err, EndpointByID (ID e) s2 = Err err.
Proof.
  intros Hin Hu Hne Hidx Hd Hinit.
  pose proof (DeleteEndpoint_lookups _ _ _ Hd) as [[err Hget] _].
  apply DeleteEndpoint_ok in Hd as (Hav & Hrows & Hidx1 & _).
  apply Init_ok in Hinit as (es & Hscan & ->).
  unfold endpoints, Store.Find in Hscan. rewrite Hav in Hscan.
  injection Hscan as <-. split.
  - unfold EndpointIDByEdgeID in *.
    rewrite Init_loop_idx_other, Hidx1; [done|].
    rewrite elem_of_edgeIDs. intros (_ & r & Hr & Heq).
    rewrite Hrows in Hr. apply elem_of_delete_rows in Hr as [Hr Hid].
    apply Hid. apply (unique_edgeIDs_same_ID _ r e Hu); congruence.
  - exists err. unfold EndpointByID in *. by rewrite Init_loop_connection.
Qed.

Lemma Init_after_DeleteEndpoint_keeps_entry_witness :
  let s := (Init (NewService Sample.db3)).2 in
  let s2 := (Init (DeleteEndpoint 7 s).2).2 in
  EndpointIDByEdgeID "edge-abc" s2 = (7%Z, true) ∧
  ∃ err, EndpointByID 7 s2 = Err err.
Proof.
  apply (Init_after_DeleteEndpoint_keeps_entry Sample.e7
           (Init (NewService Sample.db3)).2
           (DeleteEndpoint 7 (Init (NewService Sample.db3)).2).2).
  - by_evaluation.
  - unfold unique_edgeIDs. by_evaluation.
  - vm_compute. discriminate.
  - vm_compute. reflexivity.
  - vm_compute. reflexivity.
  - vm_compute. reflexivity.
Defined.



Example Create_then_Endpoints_sample :
  Endpoints (Create Sample.e10 (Init (NewService Sample.db3)).2).1.2 =
    Ok [Sample.e7; Sample.e8; Sample.e9; set_LastCheckInDate 0 Sample.e10].
Proof. vm_compute. done. Qed.

(** ** The index that [Init] builds *)

Lemma find_ID_unique (es : list Endpoint) (r : Endpoint) :
  unique_IDs es → r ∈ es →
  List.find (λ x, bool_decide (ID x = ID r)) es = Some r.
Proof.
  intros Hu Hr.
  destruct (List.find (λ x, bool_decide (ID x = ID r)) es) as [r'|] eqn:E.
  - apply find_some in E as [Hin Heq].
    apply bool_decide_eq_true in Heq. apply list_elem_of_In in Hin.
    f_equal. by apply (unique_IDs_same_record es).
  - apply list_elem_of_In in Hr.
    pose proof (find_none _ _ E r Hr) as H. simpl in H.
    by rewrite bool_decide_eq_true_2 in H.
Qed.

(** X16. When the IDs of the stored records are unique, the index that
    [Init] builds on a newly constructed service is one-to-one: two
    different edge-IDs that resolve never resolve to the same environment
    ID. *)
Theorem Init_index_one_to_one (db : Store.DB) (s' : Service)
    (k1 k2 : string) (i1 i2 : EndpointID) :
  unique_IDs (Store.rows db) →
  Init (NewService db) = (None, s') →
  k1 ≠ k2 →
  EndpointIDByEdgeID k1 s' = (i1, true) →
  EndpointIDByEdgeID k2 s' = (i2, true) →
  i1 ≠ i2.
Proof.
  intros Hu (es & Hscan & ->)%Init_ok Hk.
  unfold endpoints, Store.Find in Hscan. simpl in Hscan.
  destruct (Store.unavailable db); [done|]. injection Hscan as <-.
  unfold EndpointIDByEdgeID.
  destruct (idxEdgeID _ !! k1) as [j1|] eqn:E1; [|done].
  destruct (idxEdgeID _ !! k2) as [j2|] eqn:E2; [|done].
  intros [= ->] [= ->] Heq.
  apply Init_loop_idx_inv in E1 as [E1|(r1 & Hr1 & <- & _ & Hid1)];
    [simpl in E1; by rewrite lookup_empty in E1|].
  apply Init_loop_idx_inv in E2 as [E2|(r2 & Hr2 & <- & _ & Hid2)];
    [simpl in E2; by rewrite lookup_empty in E2|].
  apply Hk. f_equal.
  apply (unique_IDs_same_record (Store.rows db)); congruence.
Qed.

Lemma Init_index_one_to_one_witness :
  let s' := (Init (NewService Sample.db3)).2 in
  EndpointIDByEdgeID "edge-abc" s' = (7%Z, true) ∧
  EndpointIDByEdgeID "edge-xyz" s' = (9%Z, true) ∧
  7%Z ≠ 9%Z.
Proof.
  split; [reflexivity|]. split; [reflexivity|].
  apply (Init_index_one_to_one Sample.db3 (Init (NewService Sample.db3)).2
           "edge-abc" "edge-xyz" 7 9).
  - unfold unique_IDs. by_evaluation.
  - reflexivity.
  - discriminate.
  - vm_compute. reflexivity.
  - vm_compute. reflexivity.
Defined.

(** X17. Right after [Init] of a newly constructed service over a store
    with unique IDs, the index agrees with the store: an edge-ID that
    resolves to an ID leads, through [Endpoint] on that ID, to a stored
    record that carries this very edge-ID. *)
Theorem Init_index_agrees_with_store (db : Store.DB) (s' : Service)
    (k : string) (i : EndpointID) :
  unique_IDs (Store.rows db) →
  Init (NewService db) = (None, s') →
  EndpointIDByEdgeID k s' = (i, true) →
  ∃ e, EndpointByID i s' = Ok e ∧ ID e = i ∧ EdgeID e = k ∧ k ≠ "".
Proof.
  intros Hu (es & Hscan & ->)%Init_ok.
  unfold endpoints, Store.Find in Hscan. simpl in Hscan.
  destruct (Store.unavailable db) eqn:Hav; [done|]. injection Hscan as <-.
  unfold EndpointIDByEdgeID.
  destruct (idxEdgeID _ !! k) as [i1|] eqn:E1; [|done]. intros [= ->].
  apply Init_loop_idx_inv in E1 as [E1|(r & Hr & <- & Hne & <-)];
    [simpl in E1; by rewrite lookup_empty in E1|].
  exists r. split; [|done].
  unfold EndpointByID, Store.GetObject, Store.GetByID.
  rewrite Init_loop_connection. simpl. rewrite Hav.
  by rewrite find_ID_unique.
Qed.

Lemma Init_index_agrees_with_store_witness :
  ∃ e, EndpointByID 9 (Init (NewService Sample.db3)).2 = Ok e ∧
       ID e = 9%Z ∧ EdgeID e = "edge-xyz" ∧ "edge-xyz" ≠ "".
Proof.
  apply (Init_index_agrees_with_store Sample.db3).
  - unfold unique_IDs. by_evaluation.
  - reflexivity.
  - vm_compute. reflexivity.
Defined.

Lemma Init_loop_idx_size es s :
  size (idxEdgeID (Init_loop es s)) ≤ size (idxEdgeID s) + length (edgeIDs es).
Proof.
  revert s. induction es as [|e es IH]; intros s; simpl; [lia|].
  etrans; [apply IH|]. rewrite Init_body_idx, edgeIDs_cons.
  case_bool_decide; [|lia]. rewrite map_size_insert. simpl.
  destruct (idxEdgeID s !! EdgeID e); simpl; lia.
Qed.

Lemma Init_loop_heartbeats_size es s :
  size (heartbeats (Init_loop es s)) ≤ size (heartbeats s) + length es.
Proof.
  revert s. induction es as [|e es IH]; intros s; simpl; [lia|].
  etrans; [apply IH|]. rewrite Init_body_heartbeats, map_size_insert.
  destruct (heartbeats s !! ID e); simpl; lia.
Qed.

(** X18. [Init] adds at most one index entry per stored record that has
    an edge-ID and at most one heartbeat per stored record: on a newly
    constructed service the index is no larger than the number of
    records with an edge-ID, the heartbeat cache no larger than the
    number of records. *)
Theorem Init_sizes_bounded (db : Store.DB) (s : Service) :
  size (idxEdgeID (Init s).2) ≤
    size (idxEdgeID s) + length (edgeIDs (Store.rows (connection s))) ∧
  size (heartbeats (Init s).2) ≤
    size (heartbeats s) + length (Store.rows (connection s)) ∧
  size (idxEdgeID (Init (NewService db)).2) ≤ length (edgeIDs (Store.rows db)) ∧
  size (heartbeats (Init (NewService db)).2) ≤ length (Store.rows db).
Proof.
  assert (∀ s0, size (idxEdgeID (Init s0).2) ≤
            size (idxEdgeID s0) + length (edgeIDs (Store.rows (connection s0))) ∧
          size (heartbeats (Init s0).2) ≤
            size (heartbeats s0) + length (Store.rows (connection s0))) as H.
  { intros s0. unfold Init, endpoints, Store.Find.
    destruct (Store.unavailable (connection s0)); simpl; [lia|].
    split; [apply Init_loop_idx_size|apply Init_loop_heartbeats_size]. }
  destruct (H s) as [A B]. destruct (H (NewService db)) as [C D].
  change (connection (NewService db)) with db in C, D.
  assert (size (idxEdgeID (NewService db)) = 0) as Z1 by apply map_size_empty.
  assert (size (heartbeats (NewService db)) = 0) as Z2 by apply map_size_empty.
  repeat split; [done|done|lia|lia].
Qed.

(** X19. [Endpoint] reads the store only, [Endpoints] overlays the cache:
    after a heartbeat at [now] for an ID that [Endpoint] finds, [Endpoint]
    still returns the record with its persisted last-check-in value,
    while [Endpoints] lists that record with last-check-in [now]. *)
Theorem EndpointByID_ignores_heartbeat (id : EndpointID) (now : Z)
    (e : Endpoint) (s : Service) :
  EndpointByID id s = Ok e →
  ID e = id ∧
  EndpointByID id (UpdateHeartbeat id now s) = Ok e ∧
  ∃ l, Endpoints (UpdateHeartbeat id now s) = Ok l ∧
       set_LastCheckInDate now e ∈ l.
Proof.
  unfold EndpointByID, Store.GetObject, Store.GetByID, Endpoints, endpoints,
    Store.Find. simpl.
  destruct (Store.unavailable (connection s)); [done|].
  destruct (List.find _ _) as [r|] eqn:E; [|done]. intros [= ->].
  apply find_some in E as [Hin Heq].
  apply bool_decide_eq_true in Heq. apply list_elem_of_In in Hin.
  split; [done|]. split; [done|].
  eexists. split; [done|].
  rewrite Endpoints_loop_overlay. apply list_elem_of_fmap.
  exists e. split; [|done].
  unfold overlay_heartbeat, UpdateHeartbeat. simpl.
  by rewrite Heq, lookup_insert_eq.
Qed.

Lemma EndpointByID_ignores_heartbeat_witness :
  let s := (Init (NewService Sample.db3)).2 in
  ID Sample.e9 = 9%Z ∧
  EndpointByID 9 (UpdateHeartbeat 9 900 s) = Ok Sample.e9 ∧
  ∃ l, Endpoints (UpdateHeartbeat 9 900 s) = Ok l ∧
       set_LastCheckInDate 900 Sample.e9 ∈ l.
Proof.
  apply (EndpointByID_ignores_heartbeat 9 900 Sample.e9
           (Init (NewService Sample.db3)).2).
  reflexivity.
Defined.
